(** * morepath.publish: from a request to a response

    A shallow embedding of [src/morepath/publish.py]: [get_view_name],
    [resolve_model], [resolve_response] and [publish], together with the
    heap they run on ([Request] fields and the [parent] field of [App]
    instances) and a log of the calls made to the two collaborators,
    [path_registry.consume] and [App.get_view]. *)

From Stdlib Require Import Ascii String.
From stdpp Require Import gmap strings list.

Open Scope string_scope.
Open Scope list_scope.

(** ** Strings *)

(** [c in chars], for a single character. *)
Fixpoint mem_char (c : ascii) (chars : string) : bool :=
  match chars with
  | EmptyString => false
  | String c' chars' => if Ascii.eqb c c' then true else mem_char c chars'
  end.

(** Python's [str.lstrip(chars)]: drop the longest prefix made of characters
    of [chars]. *)
Fixpoint lstrip (chars s : string) : string :=
  match s with
  | EmptyString => EmptyString
  | String c s' => if mem_char c chars then lstrip chars s' else s
  end.

(** [n] copies of the character [c]. *)
Fixpoint replicate_char (n : nat) (c : ascii) : string :=
  match n with
  | O => EmptyString
  | S n' => String c (replicate_char n' c)
  end.

(** The first character of [s] is not [c] ([s] may be empty). *)
Definition not_headed_by (c : ascii) (s : string) : Prop :=
  match s with
  | EmptyString => True
  | String c' _ => c' <> c
  end.

(** ** View names *)

Definition DEFAULT_NAME : string := "".

(** [get_view_name(stack)]; [None] is Python's [None]. *)
Definition get_view_name (stack : list string) : option string :=
  match length stack with
  | 0 => Some DEFAULT_NAME
  | 1 =>
      match stack with
      | s :: _ => Some (lstrip "+" s)
      | [] => None
      end
  | _ => None
  end.

(** ** Values, requests and the heap *)

(** [App] instances are heap objects; a reference is the object's identity. *)
Abbreviation app_ref := nat.

Section Model.
(** Model objects, responses and the rest of a request (method, headers,
    ...) are opaque to [publish]. *)
Context {Obj Resp Env : Type}.

(** What [consume] returns, as [resolve_model] tells the cases apart:
    [None], an instance of [App], anything else. *)
Inductive value : Type :=
| VNone
| VApp (a : app_ref)
| VObj (o : Obj).

Inductive exn : Type :=
| HTTPNotFound
| HandlerFailure (msg : string).

(** A call either returns or raises. *)
Inductive outcome : Type :=
| Response (r : Resp)
| Raise (e : exn).

(** The fields of [morepath.Request] that [publish] touches, and the rest. *)
Record Request : Type := mkRequest {
  unconsumed : list string;
  app : app_ref;
  view_name : option string;
  environ : Env
}.

(** Calls to the collaborators, in the order they are made. *)
Inductive event : Type :=
| EConsume (a : app_ref) (result : value)
| EGetView (a : app_ref) (obj : value).

(** The heap: the request, the [parent] field of every [App] instance
    (absent: never assigned), and the call log. *)
Record State : Type := mkState {
  request : Request;
  parents : gmap nat nat;
  log : list event
}.

(** Modelled from the spec: the path registry and the view registry of each
    application, which are not part of [publish.py]. [consume a] is
    [a.config.path_registry.consume(request)]: it inspects the request and
    gives back its result and the new [request.unconsumed]. [get_view a] is
    [a.get_view(obj, request)]. *)
Record Registries : Type := mkRegistries {
  consume : app_ref -> Request -> gmap nat nat -> value * list string;
  get_view : app_ref -> value -> Request -> gmap nat nat -> outcome
}.

Definition set_unconsumed (l : list string) (r : Request) : Request :=
  {| unconsumed := l; app := app r;
     view_name := view_name r; environ := environ r |}.

Definition set_app (a : app_ref) (r : Request) : Request :=
  {| unconsumed := unconsumed r; app := a;
     view_name := view_name r; environ := environ r |}.

Definition set_view_name (v : option string) (r : Request) : Request :=
  {| unconsumed := unconsumed r; app := app r;
     view_name := v; environ := environ r |}.

Variable R : Registries.

(** [app.config.path_registry.consume(request)] *)
Definition call_consume (cur : app_ref) (s : State) : value * State :=
  let (next, rest) := consume R cur (request s) (parents s) in
  (next, {| request := set_unconsumed rest (request s);
            parents := parents s;
            log := log s ++ [EConsume cur next] |}).

(** [next.parent = app; request.app = next] *)
Definition mount (cur next : app_ref) (s : State) : State :=
  {| request := set_app next (request s);
     parents := <[next := cur]> (parents s);
     log := log s |}.

(** How the [while] loop of [resolve_model] is left: its condition became
    false, [break], or [return next]. *)
Inductive loop_exit : Type :=
| LoopEnd
| LoopBreak
| LoopReturn (v : value).

(** The [while request.unconsumed:] loop, with [cur] the local [app].
    [None]: out of fuel. *)
Fixpoint resolve_model_loop (fuel : nat) (cur : app_ref) (s : State)
  : option (loop_exit * app_ref * State) :=
  match unconsumed (request s) with
  | [] => Some (LoopEnd, cur, s)
  | _ :: _ =>
      match fuel with
      | O => None
      | S fuel' =>
          let (next, s1) := call_consume cur s in
          match next with
          | VNone => Some (LoopBreak, cur, s1)
          | VObj o => Some (LoopReturn (VObj o), cur, s1)
          | VApp b => resolve_model_loop fuel' b (mount cur b s1)
          end
      end
  end.

(** The code after the loop: [if not request.unconsumed: return
    ...consume(request)], else [return None]. *)
Definition after_loop (cur : app_ref) (s : State) : value * State :=
  match unconsumed (request s) with
  | [] => call_consume cur s
  | _ :: _ => (VNone, s)
  end.

Definition resolve_model (fuel : nat) (s : State) : option (value * State) :=
  match resolve_model_loop fuel (app (request s)) s with
  | None => None
  | Some (LoopReturn v, _, s1) => Some (v, s1)
  | Some (_, cur, s1) => Some (after_loop cur s1)
  end.

Definition resolve_response (obj : value) (s : State) : outcome * State :=
  let view_name := get_view_name (unconsumed (request s)) in
  let req := set_view_name view_name (request s) in
  match view_name with
  | None =>
      (Raise HTTPNotFound,
       {| request := req; parents := parents s; log := log s |})
  | Some _ =>
      (get_view R (app req) obj req (parents s),
       {| request := req; parents := parents s;
          log := log s ++ [EGetView (app req) obj] |})
  end.

Definition publish (fuel : nat) (s : State) : option (outcome * State) :=
  match resolve_model fuel s with
  | None => None
  | Some (obj, s1) => Some (resolve_response obj s1)
  end.

Definition is_consume (e : event) : bool :=
  match e with
  | EConsume _ _ => true
  | EGetView _ _ => false
  end.

(** Number of [consume] calls in a log. *)
Fixpoint consume_calls (l : list event) : nat :=
  match l with
  | [] => 0
  | e :: l' => (if is_consume e then 1 else 0) + consume_calls l'
  end.

(** What a write of [parent] looks like from outside: the field of [a] is
    as before, or holds the application whose [consume] returned [a]. *)
Definition parent_written_by_mount (evs : list event)
  (before after : gmap nat nat) : Prop :=
  forall a : nat,
    after !! a = before !! a \/
    exists p : nat, after !! a = Some p /\ EConsume p (VApp a) ∈ evs.

(** Modelled from the spec: what a not-found signal of [consume] leaves
    behind. The path registry is not part of [publish.py]; the spec has the
    segments of a path that is not found remain on the stack ("leftover
    segments remain for view-name derivation"), so a [consume] that is asked
    about a stack with segments and answers [None] leaves at least one. *)
Definition not_found_leaves_segments : Prop :=
  forall (a : app_ref) (r : Request) (h : gmap nat nat) (rest : list string),
    unconsumed r <> [] -> consume R a r h = (VNone, rest) -> rest <> [].

End Model.

Arguments value : clear implicits.
Arguments outcome : clear implicits.
Arguments Request : clear implicits.
Arguments event : clear implicits.
Arguments State : clear implicits.
Arguments Registries : clear implicits.
Arguments loop_exit : clear implicits.

(** ** Fixtures

    Small registries, with strings for model objects and responses. *)

Module Fixture.

Abbreviation registries := (Registries string string unit).

(** A request for the path [l] at application [a], before [publish]. *)
Definition start (a : app_ref) (l : list string) : State string unit :=
  {| request := {| unconsumed := l; app := a;
                   view_name := None; environ := tt |};
     parents := ∅;
     log := [] |}.

(** Application 0 mounts application 1 under [sub]; application 1 has the
    object [item]; each has a root object. On not-found the stack is left
    as it was. *)
Definition site_consume (a : app_ref) (r : Request unit) (_ : gmap nat nat)
  : value string * list string :=
  match a, unconsumed r with
  | 0, "sub" :: rest => (VApp 1, rest)
  | 0, [] => (VObj "root", [])
  | 1, "item" :: rest => (VObj "item", rest)
  | 1, [] => (VObj "subroot", [])
  | _, l => (VNone, l)
  end.

(** Views exist for model objects only; the response names the object and
    the view. *)
Definition site_get_view (_ : app_ref) (obj : value string) (r : Request unit)
  (_ : gmap nat nat) : outcome string :=
  match obj, view_name r with
  | VObj o, Some v => Response (o ++ ":" ++ v)%string
  | _, _ => Raise HTTPNotFound
  end.

Definition site : registries :=
  {| consume := site_consume; get_view := site_get_view |}.

(** A view registry that answers for every object, [None] included. *)
Definition any_get_view (_ : app_ref) (_ : value string) (r : Request unit)
  (_ : gmap nat nat) : outcome string :=
  match view_name r with
  | Some v => Response ("view:" ++ v)%string
  | None => Raise HTTPNotFound
  end.

Definition site_any_view : registries :=
  {| consume := site_consume; get_view := any_get_view |}.

(** An application mounted on itself at the empty path: [consume] gives
    the application back and takes no segment. *)
Definition self_mount : registries :=
  {| consume := fun a r _ => (VApp a, unconsumed r);
     get_view := site_get_view |}.

(** [/sub/item/+edit/extra]: two segments are left once [item] is found. *)
Definition item_with_long_tail : State string unit :=
  {| request := {| unconsumed := ["+edit"; "extra"]; app := 1;
                   view_name := Some "old"; environ := tt |};
     parents := {[ 1 := 0 ]};
     log := [EConsume 0 (VApp 1); EConsume 1 (VObj "item")] |}.

(** The heap after [publish] of [/sub/item] on [site]. *)
Definition sub_item_published : State string unit :=
  {| request := {| unconsumed := []; app := 1;
                   view_name := Some ""; environ := tt |};
     parents := {[ 1 := 0 ]};
     log := [EConsume 0 (VApp 1); EConsume 1 (VObj "item");
             EGetView 1 (VObj "item")] |}.

(** The heap when the loop is over for [/sub] on [site]: application 1 is
    reached and the stack is empty. *)
Definition sub_reached : State string unit :=
  {| request := {| unconsumed := []; app := 1;
                   view_name := None; environ := tt |};
     parents := {[ 1 := 0 ]};
     log := [EConsume 0 (VApp 1)] |}.

End Fixture.

(** ** The specification's statements that the code does not meet as
    written, kept as propositions to be refuted on a fixture. *)

Section Claimed.
Context {Obj Resp Env : Type} (R : Registries Obj Resp Env).

(** Not-found from [consume] with segments left: [publish] ends in
    not-found and [get_view] is not asked about [None]. *)
Definition claimed_not_found_outcome (fuel : nat) (s : State Obj Env) : Prop :=
  forall cur s1,
    resolve_model_loop R fuel (app (request s)) s = Some (LoopBreak, cur, s1) ->
    unconsumed (request s1) <> [] ->
    exists s',
      publish R fuel s = Some (Raise HTTPNotFound, s') /\
      forall a, EGetView a VNone ∉ log s'.

(** [publish] writes no field of any [App] instance (and nothing of the
    request besides [unconsumed], [app] and [view_name]). *)
Definition claimed_frame (fuel : nat) (s : State Obj Env) : Prop :=
  forall out s',
    publish R fuel s = Some (out, s') ->
    parents s' = parents s /\ environ (request s') = environ (request s).

(** [resolve_model] returns, after at most [n + 1] calls of [consume]. *)
Definition claimed_termination (s : State Obj Env) : Prop :=
  exists fuel v s' evs,
    resolve_model R fuel s = Some (v, s') /\
    log s' = log s ++ evs /\
    consume_calls evs <= length (unconsumed (request s)) + 1.

End Claimed.

(** ** [get_view_name] *)

Lemma lstrip_single (c : ascii) (s : string) :
  exists n,
    s = (replicate_char n c ++ lstrip (String c "") s)%string /\
    not_headed_by c (lstrip (String c "") s).
Proof.
  induction s as [|c' s' [n [Hs Hh]]].
  - exists 0. split; [reflexivity | exact I].
  - simpl. destruct (Ascii.eqb c' c) eqn:E.
    + apply Ascii.eqb_eq in E. subst c'.
      exists (S n). split; [|exact Hh].
      exact (f_equal (String c) Hs).
    + apply Ascii.eqb_neq in E.
      exists 0. split; [reflexivity | exact E].
Qed.

(** C5: the view name of an empty stack is the empty string; of a stack of
    one segment, that segment without its leading [+] characters (what is
    left does not start with [+], and [+edit] and [edit] both give [edit]);
    of a longer stack, [None]. *)
Theorem get_view_name_cases :
  get_view_name [] = Some "" /\
  (forall s : string, exists n r,
      get_view_name [s] = Some r /\
      s = (replicate_char n "+" ++ r)%string /\
      not_headed_by "+" r) /\
  get_view_name ["+edit"] = Some "edit" /\
  get_view_name ["edit"] = Some "edit" /\
  (forall (s1 s2 : string) rest, get_view_name (s1 :: s2 :: rest) = None).
Proof.
  split; [reflexivity|]. split.
  - intros s. destruct (lstrip_single "+" s) as [n [Hs Hh]].
    exists n, (lstrip "+" s). split; [reflexivity|]. split; assumption.
  - repeat split; reflexivity.
Qed.

(** ** One step of the machine *)

Section Steps.
Context {Obj Resp Env : Type} (R : Registries Obj Resp Env).
Implicit Types (s : State Obj Env) (obj v : value Obj) (cur : app_ref).

Lemma set_unconsumed_same (r : Request Env) :
  set_unconsumed (unconsumed r) r = r.
Proof. destruct r; reflexivity. Qed.

Lemma call_consume_eq cur s next rest :
  consume R cur (request s) (parents s) = (next, rest) ->
  call_consume R cur s =
    (next, {| request := set_unconsumed rest (request s);
              parents := parents s;
              log := log s ++ [EConsume cur next] |}).
Proof. intros H. unfold call_consume. rewrite H. reflexivity. Qed.

Lemma get_view_name_long (l : list string) :
  2 <= length l -> get_view_name l = None.
Proof. destruct l as [|s1 [|s2 l]]; simpl; intros H; try lia; reflexivity. Qed.

Lemma resolve_model_of_return fuel s v cur s1 :
  resolve_model_loop R fuel (app (request s)) s = Some (LoopReturn v, cur, s1) ->
  resolve_model R fuel s = Some (v, s1).
Proof. intros H. unfold resolve_model. rewrite H. reflexivity. Qed.

Lemma resolve_model_after_loop fuel s ex cur s1 :
  resolve_model_loop R fuel (app (request s)) s = Some (ex, cur, s1) ->
  resolve_model R fuel s =
    Some (match ex with
          | LoopReturn v => (v, s1)
          | LoopEnd | LoopBreak => after_loop R cur s1
          end).
Proof. intros H. unfold resolve_model. rewrite H. destruct ex; reflexivity. Qed.

Lemma resolve_model_loop_drained fuel cur s :
  unconsumed (request s) = [] ->
  resolve_model_loop R fuel cur s = Some (LoopEnd, cur, s).
Proof. intros H. destruct fuel; simpl; rewrite H; reflexivity. Qed.

Lemma resolve_model_drained fuel s :
  unconsumed (request s) = [] ->
  resolve_model R fuel s = Some (call_consume R (app (request s)) s).
Proof.
  intros H.
  rewrite (resolve_model_after_loop fuel s _ _ _ (resolve_model_loop_drained fuel _ s H)).
  unfold after_loop. rewrite H. reflexivity.
Qed.

(** C7: one iteration of the loop. When [consume] returns an application
    [b], the parent of [b] becomes the current application, [request.app]
    and the loop's current application become [b], and the loop goes on;
    when it returns another object, the loop (and with it [resolve_model])
    returns that object at once; on [None] the loop is left by [break]. *)
Theorem resolve_model_loop_step fuel cur s next rest :
  unconsumed (request s) <> [] ->
  consume R cur (request s) (parents s) = (next, rest) ->
  match next with
  | VApp b =>
      resolve_model_loop R (S fuel) cur s =
        resolve_model_loop R fuel b
          {| request := {| unconsumed := rest; app := b;
                           view_name := view_name (request s);
                           environ := environ (request s) |};
             parents := <[b := cur]> (parents s);
             log := log s ++ [EConsume cur (VApp b)] |}
  | VObj o =>
      let s1 := {| request := set_unconsumed rest (request s);
                   parents := parents s;
                   log := log s ++ [EConsume cur (VObj o)] |} in
      resolve_model_loop R (S fuel) cur s = Some (LoopReturn (VObj o), cur, s1) /\
      (cur = app (request s) -> resolve_model R (S fuel) s = Some (VObj o, s1))
  | VNone =>
      resolve_model_loop R (S fuel) cur s =
        Some (LoopBreak, cur,
              {| request := set_unconsumed rest (request s);
                 parents := parents s;
                 log := log s ++ [EConsume cur VNone] |})
  end.
Proof.
  intros Hne Hc.
  destruct next as [|b|o].
  - simpl. destruct (unconsumed (request s)); [contradiction|].
    rewrite (call_consume_eq _ _ _ _ Hc). reflexivity.
  - simpl. destruct (unconsumed (request s)) eqn:E; [contradiction|].
    rewrite (call_consume_eq _ _ _ _ Hc). reflexivity.
  - cbv zeta.
    assert (Hl : resolve_model_loop R (S fuel) cur s =
                 Some (LoopReturn (VObj o), cur,
                       {| request := set_unconsumed rest (request s);
                          parents := parents s;
                          log := log s ++ [EConsume cur (VObj o)] |})).
    { simpl. destruct (unconsumed (request s)); [contradiction|].
      rewrite (call_consume_eq _ _ _ _ Hc). reflexivity. }
    split; [exact Hl|].
    intros ->. exact (resolve_model_of_return _ _ _ _ _ Hl).
Qed.

(** C6: with two or more segments left over, [resolve_response] raises
    [HTTPNotFound] and the call log is as it was: [get_view] is not
    called, whatever the registries hold. *)
Theorem resolve_response_long_tail obj s :
  2 <= length (unconsumed (request s)) ->
  resolve_response R obj s =
    (Raise HTTPNotFound,
     {| request := set_view_name None (request s);
        parents := parents s;
        log := log s |}).
Proof.
  intros H. unfold resolve_response.
  rewrite (get_view_name_long _ H). reflexivity.
Qed.

(** C10: with two or more segments left over, [resolve_response] stores
    [None] in [request.view_name] before it raises: after the failure the
    field holds [None], whatever it held before, and the other fields of
    the request are as they were. *)
Theorem resolve_response_long_tail_view_name obj s :
  2 <= length (unconsumed (request s)) ->
  exists s',
    resolve_response R obj s = (Raise HTTPNotFound, s') /\
    view_name (request s') = None /\
    (forall old, view_name (request s) = Some old -> request s' <> request s) /\
    unconsumed (request s') = unconsumed (request s) /\
    app (request s') = app (request s) /\
    environ (request s') = environ (request s).
Proof.
  intros H. eexists. split.
  - unfold resolve_response. rewrite (get_view_name_long _ H). reflexivity.
  - simpl. repeat split.
    intros old Hold Heq. rewrite <- Heq in Hold. discriminate Hold.
Qed.

(** C8: when the stack is empty on entry, [resolve_model] calls [consume]
    of the request's application exactly once (the log grows by that one
    call) and returns its result. *)
Theorem resolve_model_empty_stack fuel s :
  unconsumed (request s) = [] ->
  exists v rest,
    consume R (app (request s)) (request s) (parents s) = (v, rest) /\
    resolve_model R fuel s =
      Some (v, {| request := set_unconsumed rest (request s);
                  parents := parents s;
                  log := log s ++ [EConsume (app (request s)) v] |}).
Proof.
  intros H.
  destruct (consume R (app (request s)) (request s) (parents s)) as [v rest] eqn:Hc.
  exists v, rest. split; [reflexivity|].
  rewrite (resolve_model_drained fuel s H).
  exact (f_equal Some (call_consume_eq _ _ _ _ Hc)).
Qed.

(** C9: on a request whose stack is empty and whose application's
    [consume] leaves it empty, a second run of [resolve_model] returns the
    object the first run returned (whether or not that object is an
    application), and the request is the same after each run. *)
Theorem resolve_model_idempotent_drained fuel fuel' s v :
  unconsumed (request s) = [] ->
  consume R (app (request s)) (request s) (parents s) = (v, []) ->
  exists s1 s2,
    resolve_model R fuel s = Some (v, s1) /\
    resolve_model R fuel' s1 = Some (v, s2) /\
    request s1 = request s /\
    request s2 = request s.
Proof.
  intros He Hc.
  assert (Hr : set_unconsumed [] (request s) = request s).
  { rewrite <- He. apply set_unconsumed_same. }
  pose proof (call_consume_eq _ _ _ _ Hc) as Hcall. rewrite Hr in Hcall.
  set (s1 := {| request := request s; parents := parents s;
                log := log s ++ [EConsume (app (request s)) v] |}) in *.
  assert (Hc1 : consume R (app (request s1)) (request s1) (parents s1) = (v, []))
    by exact Hc.
  pose proof (call_consume_eq _ _ _ _ Hc1) as Hcall1.
  change (set_unconsumed [] (request s1)) with (set_unconsumed [] (request s)) in Hcall1.
  rewrite Hr in Hcall1.
  exists s1. eexists.
  split; [rewrite (resolve_model_drained fuel s He); exact (f_equal Some Hcall)|].
  split; [rewrite (resolve_model_drained fuel' s1 He); exact (f_equal Some Hcall1)|].
  split; reflexivity.
Qed.

End Steps.

(** ** The loop as a whole *)

Section Loop.
Context {Obj Resp Env : Type} (R : Registries Obj Resp Env).
Implicit Types (s : State Obj Env) (obj v : value Obj) (cur : app_ref).

Lemma consume_calls_app (l1 l2 : list (event Obj)) :
  consume_calls (l1 ++ l2) = consume_calls l1 + consume_calls l2.
Proof.
  induction l1 as [|e l1 IH]; [reflexivity|].
  simpl. rewrite IH. lia.
Qed.

Lemma call_consume_effect cur s next s1 :
  call_consume R cur s = (next, s1) ->
  parents s1 = parents s /\
  log s1 = log s ++ [EConsume cur next] /\
  app (request s1) = app (request s) /\
  view_name (request s1) = view_name (request s) /\
  environ (request s1) = environ (request s).
Proof.
  unfold call_consume.
  destruct (consume R cur (request s) (parents s)) as [n rest].
  intros [= <- <-]. simpl. repeat split.
Qed.

(** The loop writes nothing but [request.unconsumed], [request.app] and
    the [parent] of the applications it descends into, and calls nothing
    but [consume]. *)
Lemma resolve_model_loop_effect fuel : forall cur s ex cur' s',
  resolve_model_loop R fuel cur s = Some (ex, cur', s') ->
  environ (request s') = environ (request s) /\
  view_name (request s') = view_name (request s) /\
  (cur = app (request s) -> cur' = app (request s')) /\
  (ex = LoopEnd -> unconsumed (request s') = []) /\
  exists evs,
    log s' = log s ++ evs /\
    consume_calls evs = length evs /\
    parent_written_by_mount evs (parents s) (parents s').
Proof.
  induction fuel as [|fuel IH]; intros cur s ex cur' s' H; simpl in H;
    destruct (unconsumed (request s)) as [|seg l] eqn:Hu.
  1, 3: injection H as <- <- <-; repeat split; auto;
        exists []; rewrite app_nil_r; repeat split; intros a; left; reflexivity.
  - discriminate H.
  - destruct (call_consume R cur s) as [next s1] eqn:Hc.
    destruct (call_consume_effect _ _ _ _ Hc) as (Hp & Hl & Ha & Hv & He).
    destruct next as [|b|o]; cbv iota in H.
    + injection H as Hex Hcur Hs'; subst ex cur' s'.
      do 4 (split; [congruence|]).
      exists [EConsume cur VNone]. repeat split; auto.
      intros a; left; congruence.
    + apply IH in H. destruct H as (He' & Hv' & Ha' & Hend & evs & Hl' & Hn & Hw).
      simpl in *.
      split; [congruence|]. split; [congruence|].
      split; [intros _; apply Ha'; reflexivity|].
      split; [exact Hend|].
      exists (EConsume cur (VApp b) :: evs). split; [|split].
      * rewrite Hl', Hl, <- app_assoc. reflexivity.
      * simpl. rewrite Hn. reflexivity.
      * intros a. destruct (decide (a = b)) as [->|Hne].
        -- destruct (Hw b) as [Hb | (p & Hb & Hin)].
           ++ right. exists cur. split.
              { rewrite Hb. apply lookup_insert_eq. }
              { apply list_elem_of_here. }
           ++ right. exists p. split; [exact Hb|].
              apply list_elem_of_further. exact Hin.
        -- destruct (Hw a) as [Hb | (p & Hb & Hin)].
           ++ left. rewrite Hb, lookup_insert_ne, Hp by congruence. reflexivity.
           ++ right. exists p. split; [exact Hb|].
              apply list_elem_of_further. exact Hin.
    + injection H as Hex Hcur Hs'; subst ex cur' s'.
      do 4 (split; [congruence|]).
      exists [EConsume cur (VObj o)]. repeat split; auto.
      intros a; left; congruence.
Qed.

(** When every mount transition takes a segment, the loop ends within
    as many iterations as there are segments. *)
Lemma resolve_model_loop_terminates
  (progress : forall a r h b rest,
      consume R a r h = (VApp b, rest) -> length rest < length (unconsumed r))
  fuel : forall cur s,
    length (unconsumed (request s)) <= fuel ->
    exists ex cur' s' evs,
      resolve_model_loop R fuel cur s = Some (ex, cur', s') /\
      log s' = log s ++ evs /\
      length evs <= length (unconsumed (request s)).
Proof.
  induction fuel as [|fuel IH]; intros cur s Hlen; simpl;
    destruct (unconsumed (request s)) as [|seg l] eqn:Hu.
  1, 3: exists LoopEnd, cur, s, []; rewrite app_nil_r; repeat split; simpl; lia.
  - simpl in Hlen. lia.
  - unfold call_consume.
    destruct (consume R cur (request s) (parents s)) as [next rest] eqn:Hc.
    destruct next as [|b|o].
    + eexists _, _, _, [_]. repeat split. simpl. lia.
    + apply progress in Hc. rewrite Hu in Hc. simpl in Hc, Hlen.
      edestruct (IH b) as (ex & cur' & s' & evs & Hr & Hl & Hn);
        [|rewrite Hr; exists ex, cur', s', (EConsume cur (VApp b) :: evs);
          repeat split].
      * simpl. lia.
      * rewrite Hl. simpl. rewrite <- app_assoc. reflexivity.
      * simpl in *. lia.
    + eexists _, _, _, [_]. repeat split. simpl. lia.
Qed.

End Loop.

(** ** [resolve_model] and [publish] *)

Section Publish.
Context {Obj Resp Env : Type} (R : Registries Obj Resp Env).
Implicit Types (s : State Obj Env) (obj v : value Obj) (cur : app_ref).

(** What [resolve_model] does once the loop is over, for every path
    registry: the final [consume] is made exactly when the stack is empty at
    that point and the loop has not returned an object. *)
Lemma resolve_model_after_loop_cases fuel s ex cur s1 :
  resolve_model_loop R fuel (app (request s)) s = Some (ex, cur, s1) ->
  match ex with
  | LoopReturn v => resolve_model R fuel s = Some (v, s1)
  | LoopEnd | LoopBreak =>
      match unconsumed (request s1) with
      | [] =>
          exists v rest,
            consume R cur (request s1) (parents s1) = (v, rest) /\
            resolve_model R fuel s =
              Some (v, {| request := set_unconsumed rest (request s1);
                          parents := parents s1;
                          log := log s1 ++ [EConsume cur v] |})
      | _ :: _ =>
          ex = LoopBreak /\ resolve_model R fuel s = Some (VNone, s1)
      end
  end.
Proof.
  intros H.
  pose proof (resolve_model_loop_effect R _ _ _ _ _ _ H) as (_ & _ & _ & Hend & _).
  rewrite (resolve_model_after_loop R fuel s ex cur s1 H).
  destruct ex as [| |v]; [| |reflexivity]; unfold after_loop;
    destruct (unconsumed (request s1)) as [|seg l] eqn:Hu.
  2: specialize (Hend eq_refl); discriminate Hend.
  3: split; reflexivity.
  all: destruct (consume R cur (request s1) (parents s1)) as [v rest] eqn:Hc;
    exists v, rest; split; [reflexivity|];
    rewrite (call_consume_eq R _ _ _ _ Hc); reflexivity.
Qed.

(** A loop left by [break] has segments left, when a not-found signal
    leaves segments. *)
Lemma resolve_model_loop_break_leftover
  (Hnf : not_found_leaves_segments R) fuel : forall cur s cur' s',
    resolve_model_loop R fuel cur s = Some (LoopBreak, cur', s') ->
    unconsumed (request s') <> [].
Proof.
  induction fuel as [|fuel IH]; intros cur s cur' s' H; simpl in H;
    destruct (unconsumed (request s)) as [|seg l] eqn:Hu; try discriminate H.
  unfold call_consume in H.
  destruct (consume R cur (request s) (parents s)) as [next rest] eqn:Hc.
  destruct next as [|b|o]; cbv iota in H.
  - injection H as _ <-. simpl.
    apply (Hnf cur (request s) (parents s) rest); [rewrite Hu; discriminate|exact Hc].
  - exact (IH _ _ _ _ H).
  - discriminate H.
Qed.

(** C4: [resolve_model] makes the final [consume] call, on the current
    application, exactly when the loop was left because the stack became
    empty, and returns what that call yields; when the loop was left by a
    not-found signal, segments are left and [resolve_model] returns [None]
    without another [consume] call (and when the loop returned an object,
    that object is the result). The path registry is taken to leave
    segments on the stack when it signals not-found, as the specification
    describes it. *)
Theorem resolve_model_final_consume fuel s ex cur s1 :
  not_found_leaves_segments R ->
  resolve_model_loop R fuel (app (request s)) s = Some (ex, cur, s1) ->
  match ex with
  | LoopEnd =>
      unconsumed (request s1) = [] /\
      exists v rest,
        consume R cur (request s1) (parents s1) = (v, rest) /\
        resolve_model R fuel s =
          Some (v, {| request := set_unconsumed rest (request s1);
                      parents := parents s1;
                      log := log s1 ++ [EConsume cur v] |})
  | LoopBreak =>
      unconsumed (request s1) <> [] /\
      resolve_model R fuel s = Some (VNone, s1)
  | LoopReturn v => resolve_model R fuel s = Some (v, s1)
  end /\
  forall v s2,
    resolve_model R fuel s = Some (v, s2) ->
    (log s2 = log s1 ++ [EConsume cur v] <-> ex = LoopEnd).
Proof.
  intros Hnf H.
  pose proof (resolve_model_after_loop_cases fuel s ex cur s1 H) as Hcases.
  assert (Hno : forall e : event Obj, log s1 <> log s1 ++ [e]).
  { intros e He. apply (f_equal length) in He.
    rewrite length_app in He. simpl in He. lia. }
  destruct ex as [| |v0].
  - pose proof (resolve_model_loop_effect R _ _ _ _ _ _ H) as (_ & _ & _ & Hend & _).
    specialize (Hend eq_refl). rewrite Hend in Hcases.
    destruct Hcases as (v0 & rest & Hc & Hr).
    split; [split; [exact Hend|]; exists v0, rest; split; assumption|].
    intros v s2 Hr2. rewrite Hr in Hr2. injection Hr2 as <- <-.
    split; reflexivity.
  - pose proof (resolve_model_loop_break_leftover Hnf _ _ _ _ _ H) as Hleft.
    destruct (unconsumed (request s1)) as [|seg l] eqn:Hu; [contradiction|].
    destruct Hcases as [_ Hr].
    split; [split; [discriminate|exact Hr]|].
    intros v s2 Hr2. rewrite Hr in Hr2. injection Hr2 as <- <-.
    split; [intros He; destruct (Hno _ He)|discriminate].
  - split; [exact Hcases|].
    intros v s2 Hr2. rewrite Hcases in Hr2. injection Hr2 as <- <-.
    split; [intros He; destruct (Hno _ He)|discriminate].
Qed.

(** C1, as amended: when [consume] signals not-found and segments are
    left, [resolve_model] returns [None] without raising. With two or more
    segments left, no view name is derived and [publish] raises
    [HTTPNotFound] without calling [get_view]. With exactly one segment
    left, the view name is that segment without its leading [+]
    characters, and the outcome of [publish] is what [get_view] of the
    current application gives for the object [None]. *)
Theorem publish_after_not_found fuel s cur s1 :
  resolve_model_loop R fuel (app (request s)) s = Some (LoopBreak, cur, s1) ->
  unconsumed (request s1) <> [] ->
  resolve_model R fuel s = Some (VNone, s1) /\
  match unconsumed (request s1) with
  | [seg] =>
      let req := set_view_name (Some (lstrip "+" seg)) (request s1) in
      publish R fuel s =
        Some (get_view R (app (request s1)) VNone req (parents s1),
              {| request := req;
                 parents := parents s1;
                 log := log s1 ++ [EGetView (app (request s1)) VNone] |})
  | _ =>
      publish R fuel s =
        Some (Raise HTTPNotFound,
              {| request := set_view_name None (request s1);
                 parents := parents s1;
                 log := log s1 |})
  end.
Proof.
  intros H Hne.
  assert (Hm : resolve_model R fuel s = Some (VNone, s1)).
  { unfold resolve_model, after_loop. rewrite H.
    destruct (unconsumed (request s1)); [contradiction|reflexivity]. }
  split; [exact Hm|].
  unfold publish. rewrite Hm. unfold resolve_response.
  destruct (unconsumed (request s1)) as [|seg [|seg' l]]; [contradiction| |];
    reflexivity.
Qed.

(** C2, as amended: [publish] leaves the rest of the request alone and
    calls nothing but [consume] and [get_view]; the only field of an
    application it writes is [parent], and only of an application that
    [consume] returned to the loop, where it stores the application whose
    registry was asked. *)
Theorem publish_frame fuel s out s' :
  publish R fuel s = Some (out, s') ->
  environ (request s') = environ (request s) /\
  exists evs,
    log s' = log s ++ evs /\
    parent_written_by_mount evs (parents s) (parents s').
Proof.
  unfold publish, resolve_model. intros H.
  destruct (resolve_model_loop R fuel (app (request s)) s)
    as [[[ex cur] s1]|] eqn:Hloop; [|discriminate H].
  destruct (resolve_model_loop_effect R _ _ _ _ _ _ Hloop)
    as (He & _ & _ & _ & evs & Hl & _ & Hw).
  assert (Hresp : forall obj s2 evs2,
             environ (request s2) = environ (request s) ->
             log s2 = log s ++ evs2 ->
             parent_written_by_mount evs2 (parents s) (parents s2) ->
             resolve_response R obj s2 = (out, s') ->
             environ (request s') = environ (request s) /\
             exists evs', log s' = log s ++ evs' /\
               parent_written_by_mount evs' (parents s) (parents s')).
  { intros obj s2 evs2 He2 Hl2 Hw2 Hr. unfold resolve_response in Hr.
    destruct (get_view_name (unconsumed (request s2)));
      injection Hr as _ <-; simpl; (split; [exact He2|]).
    - exists (evs2 ++ [EGetView (app (request s2)) obj]). split.
      + rewrite Hl2, <- app_assoc. reflexivity.
      + intros a. destruct (Hw2 a) as [Ha | (p & Ha & Hin)]; [left; exact Ha|].
        right. exists p. split; [exact Ha|]. apply elem_of_app. left. exact Hin.
    - exists evs2. split; assumption. }
  assert (Hafter : forall v s2,
             after_loop R cur s1 = (v, s2) ->
             resolve_response R v s2 = (out, s') ->
             environ (request s') = environ (request s) /\
             exists evs', log s' = log s ++ evs' /\
               parent_written_by_mount evs' (parents s) (parents s')).
  { intros v s2 Ha Hr. unfold after_loop in Ha.
    destruct (unconsumed (request s1)).
    - destruct (call_consume_effect R _ _ _ _ Ha) as (Hp & Hl2 & _ & _ & He2).
      apply (Hresp v s2 (evs ++ [EConsume cur v])); [congruence| | |exact Hr].
      + rewrite Hl2, Hl, <- app_assoc. reflexivity.
      + rewrite Hp. intros a.
        destruct (Hw a) as [Hx | (p & Hx & Hin)]; [left; exact Hx|].
        right. exists p. split; [exact Hx|]. apply elem_of_app. left. exact Hin.
    - injection Ha as <- <-. apply (Hresp VNone s1 evs); assumption. }
  destruct ex as [| |v].
  - destruct (after_loop R cur s1) as [v s2] eqn:Ha.
    injection H as H. exact (Hafter v s2 eq_refl H).
  - destruct (after_loop R cur s1) as [v s2] eqn:Ha.
    injection H as H. exact (Hafter v s2 eq_refl H).
  - injection H as H. apply (Hresp v s1 evs); assumption.
Qed.

(** C3, as amended: provided every [consume] call that returns an
    application takes at least one segment off the stack, [resolve_model]
    on a stack of [n] segments returns (fuel [n] is enough) having called
    [consume] at most [n + 1] times, and nothing else. *)
Theorem resolve_model_terminates s fuel :
  (forall a r h b rest,
      consume R a r h = (VApp b, rest) -> length rest < length (unconsumed r)) ->
  length (unconsumed (request s)) <= fuel ->
  exists v s' evs,
    resolve_model R fuel s = Some (v, s') /\
    log s' = log s ++ evs /\
    consume_calls evs = length evs /\
    consume_calls evs <= length (unconsumed (request s)) + 1.
Proof.
  intros progress Hfuel.
  destruct (resolve_model_loop_terminates R progress fuel (app (request s)) s Hfuel)
    as (ex & cur & s1 & evs & Hloop & Hl & Hlen).
  destruct (resolve_model_loop_effect R _ _ _ _ _ _ Hloop)
    as (_ & _ & _ & _ & evs0 & Hl0 & Hn & _).
  assert (evs0 = evs) as ->
      by (rewrite Hl in Hl0; exact (eq_sym (app_inv_head _ _ _ Hl0))).
  rewrite (resolve_model_after_loop R fuel s ex cur s1 Hloop).
  assert (Hafter : exists v s' evs',
             after_loop R cur s1 = (v, s') /\ log s' = log s ++ evs' /\
             consume_calls evs' = length evs' /\
             consume_calls evs' <= length (unconsumed (request s)) + 1).
  { unfold after_loop. destruct (unconsumed (request s1)).
    - destruct (call_consume R cur s1) as [v s2] eqn:Hc.
      destruct (call_consume_effect R _ _ _ _ Hc) as (_ & Hl2 & _).
      exists v, s2, (evs ++ [EConsume cur v]). split; [reflexivity|].
      split; [rewrite Hl2, Hl, <- app_assoc; reflexivity|].
      rewrite consume_calls_app, length_app, Hn. simpl. split; lia.
    - exists VNone, s1, evs. repeat split; [exact Hl|exact Hn|lia]. }
  destruct ex as [| |v].
  1, 2: destruct Hafter as (v & s' & evs' & -> & Hrest);
    exists v, s', evs'; split; [reflexivity|exact Hrest].
  exists v, s1, evs. repeat split; [exact Hl|exact Hn|lia].
Qed.

End Publish.

(** ** The theorems on the fixtures *)

Section OnFixtures.
Import Fixture.

(** On [site], whose views exist for model objects only, the request for
    the unknown [/foo] still reaches [get_view], with [None] as the object
    and [foo] as the view name; the not-found outcome is [get_view]'s. *)
Example publish_unknown_segment_on_site :
  publish site 1 (start 0 ["foo"]) =
    Some (Raise HTTPNotFound,
          {| request := {| unconsumed := ["foo"]; app := 0;
                           view_name := Some "foo"; environ := tt |};
             parents := ∅;
             log := [EConsume 0 VNone; EGetView 0 VNone] |}).
Proof. reflexivity. Qed.

Example publish_sub_item_on_site :
  publish site 2 (start 0 ["sub"; "item"]) =
    Some (Response "item:", sub_item_published).
Proof. reflexivity. Qed.

Example publish_sub_root_on_site :
  publish site 1 (start 0 ["sub"]) =
    Some (Response "subroot:",
          {| request := {| unconsumed := []; app := 1;
                           view_name := Some ""; environ := tt |};
             parents := {[ 1 := 0 ]};
             log := [EConsume 0 (VApp 1); EConsume 1 (VObj "subroot");
                     EGetView 1 (VObj "subroot")] |}).
Proof. reflexivity. Qed.

Lemma resolve_response_long_tail_witness :
  resolve_response site (VObj "item") item_with_long_tail =
    (Raise HTTPNotFound,
     {| request := {| unconsumed := ["+edit"; "extra"]; app := 1;
                      view_name := None; environ := tt |};
        parents := {[ 1 := 0 ]};
        log := [EConsume 0 (VApp 1); EConsume 1 (VObj "item")] |}).
Proof.
  apply (resolve_response_long_tail site (VObj "item") item_with_long_tail).
  simpl. lia.
Defined.

Lemma resolve_response_long_tail_view_name_witness :
  exists s',
    resolve_response site (VObj "item") item_with_long_tail =
      (Raise HTTPNotFound, s') /\
    view_name (request s') = None /\
    request s' <> request item_with_long_tail.
Proof.
  destruct (resolve_response_long_tail_view_name site (VObj "item")
              item_with_long_tail) as (s' & Hr & Hv & Hm & _).
  - simpl. lia.
  - exists s'. split; [exact Hr|]. split; [exact Hv|].
    apply (Hm "old"). reflexivity.
Defined.

Lemma resolve_model_loop_step_witness :
  resolve_model_loop site 2 0 (start 0 ["sub"; "item"]) =
    resolve_model_loop site 1 1
      {| request := {| unconsumed := ["item"]; app := 1;
                       view_name := None; environ := tt |};
         parents := {[ 1 := 0 ]};
         log := [EConsume 0 (VApp 1)] |}.
Proof.
  apply (resolve_model_loop_step site 1 0 (start 0 ["sub"; "item"])
           (VApp 1) ["item"]).
  - discriminate.
  - reflexivity.
Defined.

Lemma resolve_model_empty_stack_witness :
  exists v rest,
    consume site 1 (request (start 1 [])) (parents (start 1 [])) = (v, rest) /\
    resolve_model site 0 (start 1 []) =
      Some (v, {| request := set_unconsumed rest (request (start 1 []));
                  parents := ∅;
                  log := [EConsume 1 v] |}).
Proof.
  apply (resolve_model_empty_stack site 0 (start 1 [])).
  reflexivity.
Defined.

Lemma resolve_model_idempotent_drained_witness :
  exists s1 s2,
    resolve_model site 0 (start 1 []) = Some (VObj "subroot", s1) /\
    resolve_model site 0 s1 = Some (VObj "subroot", s2) /\
    request s1 = request (start 1 []) /\
    request s2 = request (start 1 []).
Proof.
  apply (resolve_model_idempotent_drained site 0 0 (start 1 []) (VObj "subroot"));
    reflexivity.
Defined.

Lemma publish_after_not_found_witness :
  resolve_model site_any_view 1 (start 0 ["foo"]) =
    Some (VNone, {| request := request (start 0 ["foo"]); parents := ∅;
                    log := [EConsume 0 VNone] |}) /\
  publish site_any_view 1 (start 0 ["foo"]) =
    Some (Response "view:foo",
          {| request := {| unconsumed := ["foo"]; app := 0;
                           view_name := Some "foo"; environ := tt |};
             parents := ∅;
             log := [EConsume 0 VNone; EGetView 0 VNone] |}).
Proof.
  apply (publish_after_not_found site_any_view 1 (start 0 ["foo"]) 0
           {| request := request (start 0 ["foo"]); parents := ∅;
              log := [EConsume 0 VNone] |}).
  - reflexivity.
  - discriminate.
Defined.

(** C1 as stated fails on a path of one unknown segment: [consume] reports
    not-found and leaves the segment, which then is the view name, and
    [get_view] is asked about [None] and answers. *)
Lemma publish_after_not_found_counterexample :
  ~ claimed_not_found_outcome site_any_view 1 (start 0 ["foo"]).
Proof.
  intros H.
  destruct (H 0 {| request := request (start 0 ["foo"]); parents := ∅;
                   log := [EConsume 0 VNone] |} eq_refl)
    as (s' & Hp & _); [discriminate|].
  discriminate Hp.
Qed.

Lemma publish_frame_witness :
  environ (request sub_item_published) = environ (request (start 0 ["sub"; "item"])) /\
  exists evs,
    log sub_item_published = log (start 0 ["sub"; "item"]) ++ evs /\
    parent_written_by_mount evs
      (parents (start 0 ["sub"; "item"])) (parents sub_item_published).
Proof.
  apply (publish_frame site 2 (start 0 ["sub"; "item"])
           (Response "item:") sub_item_published).
  reflexivity.
Defined.

(** C2 as stated fails on a path through a mount: [publish] stores
    application 0 in the [parent] field of application 1. *)
Lemma publish_frame_counterexample :
  ~ claimed_frame site 2 (start 0 ["sub"; "item"]).
Proof.
  intros H.
  destruct (H _ _ eq_refl) as [Hp _].
  apply (f_equal (fun m : gmap nat nat => m !! 1)) in Hp.
  vm_compute in Hp. discriminate Hp.
Qed.

Lemma site_progress (a : app_ref) (r : Request unit) (h : gmap nat nat)
  (b : app_ref) (rest : list string) :
  consume site a r h = (VApp b, rest) -> length rest < length (unconsumed r).
Proof.
  simpl. unfold site_consume.
  destruct a as [|[|a]], (unconsumed r) as [|seg l]; try discriminate.
  - destruct (string_dec seg "sub") as [->|Hne].
    + intros [= _ <-]. simpl. lia.
    + intros H. exfalso. revert H.
      repeat (destruct seg as [|[[] [] [] [] [] [] [] []] seg]; try discriminate);
        congruence.
  - intros H. exfalso. revert H.
    repeat (destruct seg as [|[[] [] [] [] [] [] [] []] seg]; try discriminate).
Defined.

Lemma resolve_model_terminates_witness :
  exists v s' evs,
    resolve_model site 3 (start 0 ["sub"; "item"; "+edit"]) = Some (v, s') /\
    log s' = [] ++ evs /\
    consume_calls evs = length evs /\
    consume_calls evs <= 3 + 1.
Proof.
  apply (resolve_model_terminates site (start 0 ["sub"; "item"; "+edit"]) 3).
  - exact site_progress.
  - simpl. lia.
Defined.

Lemma self_mount_loop_diverges (fuel : nat) :
  forall cur (s : State string unit),
    unconsumed (request s) <> [] ->
    resolve_model_loop self_mount fuel cur s = None.
Proof.
  induction fuel as [|fuel IH]; intros cur s Hne; simpl;
    destruct (unconsumed (request s)) as [|seg l] eqn:Hu;
    try contradiction; [reflexivity|].
  apply IH. simpl. try rewrite Hu. discriminate.
Qed.

(** C3 as stated fails for an application mounted on itself at the empty
    path: each iteration is a mount transition that takes no segment, and
    the loop never ends. *)
Lemma resolve_model_terminates_counterexample :
  ~ claimed_termination self_mount (start 0 ["a"]).
Proof.
  intros (fuel & v & s' & evs & H & _).
  unfold resolve_model in H.
  rewrite self_mount_loop_diverges in H by discriminate.
  discriminate H.
Qed.

End OnFixtures.

(** ** More on view names *)

Lemma lstrip_not_headed (c : ascii) (s : string) :
  not_headed_by c s -> lstrip (String c "") s = s.
Proof.
  destruct s as [|c' s']; [reflexivity|].
  simpl. intros Hne. apply Ascii.eqb_neq in Hne. rewrite Hne. reflexivity.
Qed.

Lemma lstrip_replicate (c : ascii) (n : nat) (s : string) :
  lstrip (String c "") (replicate_char n c ++ s)%string = lstrip (String c "") s.
Proof.
  induction n as [|n IH]; [reflexivity|].
  change (replicate_char (S n) c ++ s)%string
    with (String c (replicate_char n c ++ s)%string).
  simpl. rewrite Ascii.eqb_refl. exact IH.
Qed.

Lemma append_empty_r (s : string) : (s ++ "")%string = s.
Proof.
  induction s as [|c s IH]; [reflexivity|].
  exact (f_equal (String c) IH).
Qed.

(** A single leftover segment selects the default view exactly when it is
    made of [+] characters only ([+], [++], ... and the empty segment). *)
Theorem get_view_name_default_iff (s : string) :
  get_view_name [s] = Some DEFAULT_NAME <-> exists n, s = replicate_char n "+".
Proof.
  change (get_view_name [s]) with (Some (lstrip "+" s)). split.
  - intros [= H]. destruct (lstrip_single "+" s) as [n [Hs _]].
    exists n. rewrite H in Hs. rewrite Hs at 1. apply append_empty_r.
  - intros [n ->]. f_equal.
    rewrite <- (append_empty_r (replicate_char n "+")).
    apply (lstrip_replicate "+" n "").
Qed.

(** A derived view name is its own view name: deriving again from a stack
    that holds just the name gives the name back. *)
Theorem get_view_name_idempotent (s v : string) :
  get_view_name [s] = Some v -> get_view_name [v] = Some v.
Proof.
  change (get_view_name [s]) with (Some (lstrip "+" s)).
  change (get_view_name [v]) with (Some (lstrip "+" v)).
  intros [= <-]. f_equal.
  destruct (lstrip_single "+" s) as [n [_ Hh]].
  apply (lstrip_not_headed "+"). exact Hh.
Qed.

(** However many [+] characters lead a segment, the view name is the same:
    [edit], [+edit] and [++edit] name one view. *)
Theorem get_view_name_plus_prefix (n : nat) (s : string) :
  get_view_name [(replicate_char n "+" ++ s)%string] = get_view_name [s].
Proof.
  change (Some (lstrip "+" (replicate_char n "+" ++ s)%string) = Some (lstrip "+" s)).
  f_equal. apply (lstrip_replicate "+").
Qed.

(** ** What [resolve_model] and [publish] leave behind *)

Section Outcome.
Context {Obj Resp Env : Type} (R : Registries Obj Resp Env).
Implicit Types (s : State Obj Env) (obj v : value Obj) (cur : app_ref).

Lemma get_view_name_none_iff (l : list string) :
  get_view_name l = None <-> 2 <= length l.
Proof.
  destruct l as [|s1 [|s2 l]]; simpl; split; intros H;
    try discriminate; try lia; reflexivity.
Qed.

(** The last call of a loop that is left by [break] or [return] is the
    [consume] call, on the current application, that gave the result. *)
Lemma resolve_model_loop_last fuel : forall cur s ex cur' s',
  resolve_model_loop R fuel cur s = Some (ex, cur', s') ->
  match ex with
  | LoopEnd => True
  | LoopBreak =>
      exists evs, log s' = log s ++ evs ++ [EConsume cur' VNone] /\
                  consume_calls evs = length evs
  | LoopReturn v =>
      exists evs, log s' = log s ++ evs ++ [EConsume cur' v] /\
                  consume_calls evs = length evs
  end.
Proof.
  induction fuel as [|fuel IH]; intros cur s ex cur' s' H; simpl in H;
    destruct (unconsumed (request s)) as [|seg l] eqn:Hu.
  1, 3: injection H as <- _ _; exact I.
  - discriminate H.
  - destruct (call_consume R cur s) as [next s1] eqn:Hc.
    destruct (call_consume_effect R _ _ _ _ Hc) as (_ & Hl & _).
    destruct next as [|b|o]; cbv iota in H.
    + injection H as Hex Hcur Hs'; subst ex cur' s'.
      exists []. split; [exact Hl|reflexivity].
    + apply IH in H. simpl in H.
      destruct ex as [| |v]; [exact I| |];
        destruct H as (evs & Hl' & Hn);
        exists (EConsume cur (VApp b) :: evs);
        (split; [rewrite Hl', Hl, <- app_assoc; reflexivity
                |simpl; rewrite Hn; reflexivity]).
    + injection H as Hex Hcur Hs'; subst ex cur' s'.
      exists []. split; [exact Hl|reflexivity].
Qed.

(** After the loop, either nothing was mounted, or the [parent] of the
    current application is the application that mounted it. *)
Lemma resolve_model_loop_parent fuel : forall cur s ex cur' s',
  resolve_model_loop R fuel cur s = Some (ex, cur', s') ->
  (cur' = cur /\ parents s' = parents s) \/
  exists p evs evs',
    log s' = log s ++ evs ++ EConsume p (VApp cur') :: evs' /\
    parents s' !! cur' = Some p.
Proof.
  induction fuel as [|fuel IH]; intros cur s ex cur' s' H; simpl in H;
    destruct (unconsumed (request s)) as [|seg l] eqn:Hu.
  1, 3: injection H as _ <- <-; left; split; reflexivity.
  - discriminate H.
  - destruct (call_consume R cur s) as [next s1] eqn:Hc.
    destruct (call_consume_effect R _ _ _ _ Hc) as (Hp & Hl & _).
    destruct next as [|b|o]; cbv iota in H.
    + injection H as _ Hcur Hs'; subst cur' s'. left. split; [reflexivity|exact Hp].
    + destruct (resolve_model_loop_effect R _ _ _ _ _ _ H)
        as (_ & _ & _ & _ & evs0 & Hl0 & _).
      apply IH in H. simpl in H, Hl0. right.
      destruct H as [[-> Hpar] | (p & evs & evs' & Hl' & Hpar)].
      * exists cur, [], evs0. split.
        -- rewrite Hl0, Hl, <- app_assoc. reflexivity.
        -- rewrite Hpar. apply lookup_insert_eq.
      * exists p, (EConsume cur (VApp b) :: evs), evs'. split; [|exact Hpar].
        rewrite Hl', Hl, <- app_assoc. reflexivity.
    + injection H as _ Hcur Hs'; subst cur' s'. left. split; [reflexivity|exact Hp].
Qed.

(** When [consume] only ever gives back a tail of the stack it was given,
    the stack after the loop is a tail of the stack before. *)
Lemma resolve_model_loop_suffix
  (tails : forall a r h v rest,
      consume R a r h = (v, rest) -> rest `suffix_of` unconsumed r)
  fuel : forall cur s ex cur' s',
    resolve_model_loop R fuel cur s = Some (ex, cur', s') ->
    unconsumed (request s') `suffix_of` unconsumed (request s).
Proof.
  induction fuel as [|fuel IH]; intros cur s ex cur' s' H; simpl in H;
    destruct (unconsumed (request s)) as [|seg l] eqn:Hu.
  1, 3: injection H as _ _ <-; rewrite Hu; reflexivity.
  - discriminate H.
  - unfold call_consume in H.
    destruct (consume R cur (request s) (parents s)) as [next rest] eqn:Hc.
    apply tails in Hc. rewrite Hu in Hc.
    destruct next as [|b|o]; cbv iota in H.
    + injection H as _ _ <-. exact Hc.
    + apply IH in H. simpl in H. etrans; [exact H|exact Hc].
    + injection H as _ _ <-. exact Hc.
Qed.

Lemma after_loop_effect cur s v s' :
  after_loop R cur s = (v, s') ->
  parents s' = parents s /\
  app (request s') = app (request s) /\
  view_name (request s') = view_name (request s) /\
  environ (request s') = environ (request s) /\
  match unconsumed (request s) with
  | [] => log s' = log s ++ [EConsume cur v]
  | _ :: _ => s' = s /\ v = VNone
  end.
Proof.
  unfold after_loop. destruct (unconsumed (request s)).
  - intros H. destruct (call_consume_effect R _ _ _ _ H) as (Hp & Hl & Ha & Hv & He).
    repeat split; assumption.
  - intros [= <- <-]. repeat split.
Qed.

End Outcome.

Section Guarantees.
Context {Obj Resp Env : Type} (R : Registries Obj Resp Env).
Implicit Types (s : State Obj Env) (obj v : value Obj) (cur : app_ref).

Lemma resolve_model_log fuel s v s' :
  resolve_model R fuel s = Some (v, s') ->
  view_name (request s') = view_name (request s) /\
  environ (request s') = environ (request s) /\
  exists evs,
    log s' = log s ++ evs ++ [EConsume (app (request s')) v] /\
    consume_calls evs = length evs.
Proof.
  unfold resolve_model. intros H.
  destruct (resolve_model_loop R fuel (app (request s)) s)
    as [[[ex cur] s1]|] eqn:Hloop; [|discriminate H].
  destruct (resolve_model_loop_effect R _ _ _ _ _ _ Hloop)
    as (He & Hv & Hcur & Hend & evs0 & Hl0 & Hn0 & _).
  specialize (Hcur eq_refl).
  pose proof (resolve_model_loop_last R _ _ _ _ _ _ Hloop) as Hlast.
  assert (Hfinal : unconsumed (request s1) = [] ->
            after_loop R cur s1 = (v, s') ->
            view_name (request s') = view_name (request s) /\
            environ (request s') = environ (request s) /\
            exists evs,
              log s' = log s ++ evs ++ [EConsume (app (request s')) v] /\
              consume_calls evs = length evs).
  { intros Hu Ha.
    destruct (after_loop_effect R _ _ _ _ Ha) as (_ & Happ & Hv2 & He2 & Hl2).
    rewrite Hu in Hl2.
    split; [congruence|]. split; [congruence|].
    exists evs0. split; [|exact Hn0].
    rewrite Hl2, Hl0, Happ, <- Hcur, <- app_assoc. reflexivity. }
  destruct ex as [| |v0].
  - injection H as H. apply Hfinal; [apply Hend; reflexivity|exact H].
  - injection H as H.
    destruct (unconsumed (request s1)) as [|seg l] eqn:Hu; [apply Hfinal; auto|].
    destruct (after_loop_effect R _ _ _ _ H) as (_ & _ & _ & _ & Hsame).
    rewrite Hu in Hsame. destruct Hsame as [-> ->].
    split; [exact Hv|]. split; [exact He|].
    destruct Hlast as (evs & Hl & Hn). exists evs. rewrite <- Hcur. split; assumption.
  - injection H as -> ->.
    split; [exact Hv|]. split; [exact He|].
    destruct Hlast as (evs & Hl & Hn). exists evs. rewrite <- Hcur. split; assumption.
Qed.

Lemma resolve_response_effect obj s out s' :
  resolve_response R obj s = (out, s') ->
  parents s' = parents s /\
  app (request s') = app (request s) /\
  unconsumed (request s') = unconsumed (request s) /\
  environ (request s') = environ (request s) /\
  view_name (request s') = get_view_name (unconsumed (request s)) /\
  match get_view_name (unconsumed (request s)) with
  | None => out = Raise HTTPNotFound /\ log s' = log s
  | Some _ =>
      out = get_view R (app (request s')) obj (request s') (parents s') /\
      log s' = log s ++ [EGetView (app (request s')) obj]
  end.
Proof.
  unfold resolve_response.
  destruct (get_view_name (unconsumed (request s))); intros [= <- <-];
    simpl; repeat split.
Qed.

(** What [resolve_model] returns is what the last [consume] call returned,
    and that call was made on the application [request.app] now refers to.
    Up to there only [consume] was called, at least once, and
    [request.view_name] and the rest of the request were left alone. *)
Theorem resolve_model_returns_last_consume fuel s v s' :
  resolve_model R fuel s = Some (v, s') ->
  view_name (request s') = view_name (request s) /\
  environ (request s') = environ (request s) /\
  exists evs,
    log s' = log s ++ evs ++ [EConsume (app (request s')) v] /\
    consume_calls evs = length evs.
Proof. apply resolve_model_log. Qed.

(** The outcome of [publish] is one of two. Either [request.view_name] ends
    as [None]: two or more segments are left, [HTTPNotFound] is raised and
    only [consume] was called. Or it ends as a string: at most one segment
    is left, and the outcome is that of one [get_view] call, the last call
    made, on the application [request.app] refers to, with the object
    [resolve_model] returned and the request as [publish] leaves it. In both
    cases [request.view_name] is the view name of the leftover stack. *)
Theorem publish_outcome fuel s out s' :
  publish R fuel s = Some (out, s') ->
  view_name (request s') = get_view_name (unconsumed (request s')) /\
  exists evs,
    consume_calls evs = length evs /\
    match view_name (request s') with
    | None =>
        out = Raise HTTPNotFound /\
        log s' = log s ++ evs /\
        2 <= length (unconsumed (request s'))
    | Some _ =>
        length (unconsumed (request s')) <= 1 /\
        exists obj,
          out = get_view R (app (request s')) obj (request s') (parents s') /\
          log s' = log s ++ evs ++ [EGetView (app (request s')) obj]
    end.
Proof.
  unfold publish. intros H.
  destruct (resolve_model R fuel s) as [[obj s1]|] eqn:Hm; [|discriminate H].
  injection H as H.
  destruct (resolve_model_log _ _ _ _ Hm) as (_ & _ & evs & Hl & Hn).
  destruct (resolve_response_effect _ _ _ _ H) as (_ & _ & Hu & _ & Hv & Hout).
  rewrite Hu. split; [exact Hv|].
  exists (evs ++ [EConsume (app (request s1)) obj]).
  split; [rewrite consume_calls_app, length_app, Hn; reflexivity|].
  rewrite Hv.
  destruct (get_view_name (unconsumed (request s1))) as [name|] eqn:Hg.
  - split.
    + destruct (le_lt_dec 2 (length (unconsumed (request s1)))) as [Hlong|Hshort]; [|lia].
      apply get_view_name_none_iff in Hlong. congruence.
    + exists obj. destruct Hout as [Ho Hlog]. split; [exact Ho|].
      rewrite Hlog, Hl, <- !app_assoc. reflexivity.
  - destruct Hout as [Ho Hlog]. split; [exact Ho|]. split.
    + rewrite Hlog, Hl. reflexivity.
    + apply get_view_name_none_iff. exact Hg.
Qed.

(** [publish] adds no segment: when [consume] only ever gives back a tail
    of the stack it was given, the leftover stack is a tail of the stack the
    request came with. *)
Theorem publish_unconsumed_suffix fuel s out s' :
  (forall a r h v rest,
      consume R a r h = (v, rest) -> rest `suffix_of` unconsumed r) ->
  publish R fuel s = Some (out, s') ->
  unconsumed (request s') `suffix_of` unconsumed (request s).
Proof.
  intros tails. unfold publish, resolve_model. intros H.
  destruct (resolve_model_loop R fuel (app (request s)) s)
    as [[[ex cur] s1]|] eqn:Hloop; [|discriminate H].
  pose proof (resolve_model_loop_suffix R tails _ _ _ _ _ _ Hloop) as Hs1.
  assert (Hafter : forall v s2, after_loop R cur s1 = (v, s2) ->
            unconsumed (request s2) `suffix_of` unconsumed (request s)).
  { intros v s2. unfold after_loop, call_consume.
    destruct (unconsumed (request s1)) eqn:Hu.
    - destruct (consume R cur (request s1) (parents s1)) as [n rest] eqn:Hc.
      intros [= _ <-]. simpl. apply tails in Hc. rewrite Hu in Hc.
      etrans; [exact Hc|exact Hs1].
    - intros [= _ <-]. rewrite Hu. exact Hs1. }
  destruct ex as [| |v].
  1, 2: destruct (after_loop R cur s1) as [v s2] eqn:Ha; injection H as H;
    destruct (resolve_response_effect _ _ _ _ H) as (_ & _ & -> & _);
    exact (Hafter v s2 eq_refl).
  injection H as H.
  destruct (resolve_response_effect _ _ _ _ H) as (_ & _ & -> & _). exact Hs1.
Qed.

(** After [publish], either [request.app] and every [parent] field are as
    they were, or the [parent] field of the application [request.app] now
    refers to holds the application whose [consume] returned it. *)
Theorem publish_parent_of_app fuel s out s' :
  publish R fuel s = Some (out, s') ->
  (app (request s') = app (request s) /\ parents s' = parents s) \/
  exists p evs evs',
    log s' = log s ++ evs ++ EConsume p (VApp (app (request s'))) :: evs' /\
    parents s' !! app (request s') = Some p.
Proof.
  unfold publish, resolve_model. intros H.
  destruct (resolve_model_loop R fuel (app (request s)) s)
    as [[[ex cur] s1]|] eqn:Hloop; [|discriminate H].
  destruct (resolve_model_loop_effect R _ _ _ _ _ _ Hloop) as (_ & _ & Hcur & _).
  specialize (Hcur eq_refl). subst cur.
  pose proof (resolve_model_loop_parent R _ _ _ _ _ _ Hloop) as Hpar.
  assert (Hthen : forall s2 tl,
            parents s2 = parents s1 -> app (request s2) = app (request s1) ->
            log s2 = log s1 ++ tl ->
            (app (request s2) = app (request s) /\ parents s2 = parents s) \/
            exists p evs evs',
              log s2 = log s ++ evs ++ EConsume p (VApp (app (request s2))) :: evs' /\
              parents s2 !! app (request s2) = Some p).
  { intros s2 tl Hp Ha Hl. rewrite Hp, Ha.
    destruct Hpar as [[Hc Hq] | (p & evs & evs' & Hl1 & Hq)].
    - left. split; congruence.
    - right. exists p, evs, (evs' ++ tl). split; [|exact Hq].
      rewrite Hl, Hl1, <- !app_assoc. reflexivity. }
  assert (Hresp : forall obj s2 tl,
            parents s2 = parents s1 -> app (request s2) = app (request s1) ->
            log s2 = log s1 ++ tl ->
            resolve_response R obj s2 = (out, s') ->
            (app (request s') = app (request s) /\ parents s' = parents s) \/
            exists p evs evs',
              log s' = log s ++ evs ++ EConsume p (VApp (app (request s'))) :: evs' /\
              parents s' !! app (request s') = Some p).
  { intros obj s2 tl Hp Ha Hl Hr.
    destruct (resolve_response_effect _ _ _ _ Hr) as (Hp' & Ha' & _ & _ & _ & Hout).
    destruct (get_view_name (unconsumed (request s2))); destruct Hout as [_ Hl'].
    - apply (Hthen s' (tl ++ [EGetView (app (request s')) obj])); try congruence.
      rewrite Hl', Hl, <- app_assoc. reflexivity.
    - apply (Hthen s' tl); congruence. }
  destruct ex as [| |v].
  1, 2: destruct (after_loop R (app (request s1)) s1) as [v s2] eqn:Ha;
    injection H as H;
    destruct (after_loop_effect R _ _ _ _ Ha) as (Hp & Happ & _ & _ & Hl);
    destruct (unconsumed (request s1));
    [ apply (Hresp v s2 [EConsume (app (request s1)) v]); assumption
    | destruct Hl as [-> _]; apply (Hresp v s1 []); auto using app_nil_r ].
  injection H as H. apply (Hresp v s1 []); auto using app_nil_r.
Qed.

End Guarantees.

(** ** Particular paths *)

Section Paths.
Context {Obj Resp Env : Type} (R : Registries Obj Resp Env).
Implicit Types (s : State Obj Env) (obj v : value Obj) (cur : app_ref).

(** An application whose path registry never gives back an application:
    [resolve_model] returns after at most one iteration of the loop, with one
    or two [consume] calls in all, and leaves [request.app] and every
    [parent] field as they were. *)
Theorem resolve_model_leaf fuel s :
  (forall r h b rest, consume R (app (request s)) r h <> (VApp b, rest)) ->
  exists v s' evs,
    resolve_model R (S fuel) s = Some (v, s') /\
    log s' = log s ++ evs /\
    consume_calls evs = length evs /\
    1 <= length evs <= 2 /\
    app (request s') = app (request s) /\
    parents s' = parents s.
Proof.
  intros leaf. unfold resolve_model. simpl.
  destruct (unconsumed (request s)) as [|seg l] eqn:Hu.
  - unfold after_loop. rewrite Hu. unfold call_consume.
    destruct (consume R (app (request s)) (request s) (parents s)) as [v rest].
    eexists _, _, [_]. split; [reflexivity|]. simpl. repeat split; lia.
  - unfold call_consume.
    destruct (consume R (app (request s)) (request s) (parents s))
      as [next rest] eqn:Hc.
    destruct next as [|b|o].
    + unfold after_loop. simpl. destruct rest as [|seg' rest].
      * unfold call_consume. simpl.
        destruct (consume R (app (request s))
                    (set_unconsumed [] (request s)) (parents s)) as [v rest'].
        eexists _, _, [_; _]. split; [reflexivity|]. simpl.
        rewrite <- app_assoc. repeat split; lia.
      * eexists _, _, [_]. split; [reflexivity|]. simpl. repeat split; lia.
    + exfalso. exact (leaf _ _ _ _ Hc).
    + eexists _, _, [_]. split; [reflexivity|]. simpl. repeat split; lia.
Qed.

(** A path that the request's own application resolves to an object in one
    step, followed by at most one more segment: [publish] is one [consume]
    call and one [get_view] call, on that application, for that object, and
    the view name is the default name, or the extra segment without its
    leading [+] characters. *)
Theorem publish_direct_hit fuel s o rest :
  unconsumed (request s) <> [] ->
  consume R (app (request s)) (request s) (parents s) = (VObj o, rest) ->
  length rest <= 1 ->
  let a := app (request s) in
  let req := {| unconsumed := rest; app := a;
                view_name := Some (match rest with
                                   | [] => DEFAULT_NAME
                                   | seg :: _ => lstrip "+" seg
                                   end);
                environ := environ (request s) |} in
  publish R (S fuel) s =
    Some (get_view R a (VObj o) req (parents s),
          {| request := req;
             parents := parents s;
             log := log s ++ [EConsume a (VObj o); EGetView a (VObj o)] |}).
Proof.
  intros Hne Hc Hlen. unfold publish, resolve_model. simpl.
  destruct (unconsumed (request s)) as [|seg l] eqn:Hu; [contradiction|].
  rewrite (call_consume_eq R _ _ _ _ Hc). unfold resolve_response. simpl.
  destruct rest as [|seg' [|seg'' rest]]; simpl in Hlen; [| |lia];
    simpl; rewrite <- app_assoc; reflexivity.
Qed.

(** Mounting is transparent to [publish]: when the request's application
    answers with a mounted application, publishing the request is publishing
    what is left of it at the mounted application, whose [parent] is the
    application the request came to. *)
Theorem publish_through_mount fuel s b rest :
  unconsumed (request s) <> [] ->
  consume R (app (request s)) (request s) (parents s) = (VApp b, rest) ->
  publish R (S fuel) s =
    publish R fuel
      {| request := {| unconsumed := rest; app := b;
                       view_name := view_name (request s);
                       environ := environ (request s) |};
         parents := <[b := app (request s)]> (parents s);
         log := log s ++ [EConsume (app (request s)) (VApp b)] |}.
Proof.
  intros Hne Hc. unfold publish, resolve_model. simpl.
  destruct (unconsumed (request s)) as [|seg l] eqn:Hu; [contradiction|].
  rewrite (call_consume_eq R _ _ _ _ Hc). reflexivity.
Qed.

End Paths.

(** ** The further theorems on the fixtures *)

Section MoreOnFixtures.
Import Fixture.

(** What [site]'s path registry does, by cases: an object for the first
    segment (or for the empty stack), not-found with the stack as it was,
    or application 1 for [sub] at application 0. *)
Lemma site_consume_cases (a : app_ref) (r : Request unit) (h : gmap nat nat) :
  (exists o, site_consume a r h = (VObj o, tail (unconsumed r))) \/
  site_consume a r h = (VNone, unconsumed r) \/
  (a = 0 /\ exists rest,
      unconsumed r = "sub" :: rest /\ site_consume a r h = (VApp 1, rest)).
Proof.
  unfold site_consume.
  destruct a as [|[|a]], (unconsumed r) as [|seg l]; simpl;
    try (left; eexists; reflexivity); try (right; left; reflexivity);
    repeat (destruct seg as [|[[] [] [] [] [] [] [] []] seg];
            try (left; eexists; reflexivity);
            try (right; left; reflexivity);
            try (right; right; split; [reflexivity|];
                 eexists; split; reflexivity)).
Qed.

Lemma site_tails (a : app_ref) (r : Request unit) (h : gmap nat nat)
  (v : value string) (rest : list string) :
  consume site a r h = (v, rest) -> rest `suffix_of` unconsumed r.
Proof.
  intros H. change (site_consume a r h = (v, rest)) in H.
  destruct (site_consume_cases a r h)
    as [[o Ho] | [Hn | (_ & rest' & Hu & Hm)]].
  - assert (rest = tail (unconsumed r)) as -> by congruence.
    destruct (unconsumed r) as [|x l]; [reflexivity|].
    exists [x]. reflexivity.
  - assert (rest = unconsumed r) as -> by congruence. reflexivity.
  - assert (rest = rest') as -> by congruence.
    rewrite Hu. exists ["sub"]. reflexivity.
Qed.

Lemma site_leaf_1 (r : Request unit) (h : gmap nat nat) (b : app_ref)
  (rest : list string) :
  consume site 1 r h <> (VApp b, rest).
Proof.
  intros H. change (site_consume 1 r h = (VApp b, rest)) in H.
  destruct (site_consume_cases 1 r h)
    as [[o Ho] | [Hn | (Ha & _)]]; congruence.
Qed.

Lemma site_not_found_leaves : not_found_leaves_segments site.
Proof.
  intros a r h rest Hne H. change (site_consume a r h = (VNone, rest)) in H.
  destruct (site_consume_cases a r h)
    as [[o Ho] | [Hn | (_ & rest' & _ & Hm)]]; congruence.
Qed.

Lemma resolve_model_final_consume_witness :
  (unconsumed (request sub_reached) = [] /\
   exists v rest,
     consume site 1 (request sub_reached) (parents sub_reached) = (v, rest) /\
     resolve_model site 1 (start 0 ["sub"]) =
       Some (v, {| request := set_unconsumed rest (request sub_reached);
                   parents := parents sub_reached;
                   log := log sub_reached ++ [EConsume 1 v] |})) /\
  forall v s2,
    resolve_model site 1 (start 0 ["sub"]) = Some (v, s2) ->
    (log s2 = log sub_reached ++ [EConsume 1 v] <-> @LoopEnd string = LoopEnd).
Proof.
  apply (resolve_model_final_consume site 1 (start 0 ["sub"]) LoopEnd 1 sub_reached).
  - exact site_not_found_leaves.
  - reflexivity.
Defined.

Lemma get_view_name_idempotent_witness :
  get_view_name ["edit"] = Some "edit".
Proof. apply (get_view_name_idempotent "+edit" "edit"). reflexivity. Defined.

Lemma resolve_model_returns_last_consume_witness :
  exists evs,
    [EConsume 0 (VApp 1); EConsume 1 (VObj "item")]
      = [] ++ evs ++ [EConsume 1 (VObj "item" : value string)] /\
    consume_calls evs = length evs.
Proof.
  refine (proj2 (proj2 (resolve_model_returns_last_consume site 2
            (start 0 ["sub"; "item"]) (VObj "item")
            {| request := {| unconsumed := []; app := 1;
                             view_name := None; environ := tt |};
               parents := {[ 1 := 0 ]};
               log := [EConsume 0 (VApp 1); EConsume 1 (VObj "item")] |} _))).
  reflexivity.
Defined.

Lemma publish_outcome_witness :
  Some "" = get_view_name [] /\
  exists evs : list (event string),
    consume_calls evs = length evs /\
    0 <= 1 /\
    exists obj,
      Response "item:" = get_view site 1 obj (request sub_item_published) {[ 1 := 0 ]} /\
      log sub_item_published = [] ++ evs ++ [EGetView 1 obj].
Proof.
  apply (publish_outcome site 2 (start 0 ["sub"; "item"])
           (Response "item:") sub_item_published).
  reflexivity.
Defined.

Lemma publish_unconsumed_suffix_witness :
  ["+edit"] `suffix_of` ["sub"; "item"; "+edit"].
Proof.
  apply (publish_unconsumed_suffix site 2 (start 0 ["sub"; "item"; "+edit"])
           (Response "item:edit")
           {| request := {| unconsumed := ["+edit"]; app := 1;
                            view_name := Some "edit"; environ := tt |};
              parents := {[ 1 := 0 ]};
              log := [EConsume 0 (VApp 1); EConsume 1 (VObj "item");
                      EGetView 1 (VObj "item")] |}).
  - exact site_tails.
  - reflexivity.
Defined.

Lemma publish_parent_of_app_witness :
  (1 = 0 /\ ({[ 1 := 0 ]} : gmap nat nat) = ∅) \/
  exists (p : nat) (evs evs' : list (event string)),
    log sub_item_published = [] ++ evs ++ EConsume p (VApp 1) :: evs' /\
    ({[ 1 := 0 ]} : gmap nat nat) !! 1 = Some p.
Proof.
  apply (publish_parent_of_app site 2 (start 0 ["sub"; "item"])
           (Response "item:") sub_item_published).
  reflexivity.
Defined.

Lemma resolve_model_leaf_witness :
  exists v s' evs,
    resolve_model site 1 (start 1 ["item"; "+edit"]) = Some (v, s') /\
    log s' = [] ++ evs /\
    consume_calls evs = length evs /\
    1 <= length evs <= 2 /\
    app (request s') = 1 /\
    parents s' = ∅.
Proof.
  apply (resolve_model_leaf site 0 (start 1 ["item"; "+edit"])).
  exact site_leaf_1.
Defined.

Lemma publish_direct_hit_witness :
  publish site 1 (start 1 ["item"; "+edit"]) =
    Some (Response "item:edit",
          {| request := {| unconsumed := ["+edit"]; app := 1;
                           view_name := Some "edit"; environ := tt |};
             parents := ∅;
             log := [EConsume 1 (VObj "item"); EGetView 1 (VObj "item")] |}).
Proof.
  apply (publish_direct_hit site 0 (start 1 ["item"; "+edit"]) "item" ["+edit"]).
  - discriminate.
  - reflexivity.
  - simpl. lia.
Defined.

Lemma publish_through_mount_witness :
  publish site 2 (start 0 ["sub"; "item"]) =
    publish site 1
      {| request := {| unconsumed := ["item"]; app := 1;
                       view_name := None; environ := tt |};
         parents := {[ 1 := 0 ]};
         log := [EConsume 0 (VApp 1)] |}.
Proof.
  apply (publish_through_mount site 1 (start 0 ["sub"; "item"]) 1 ["item"]).
  - discriminate.
  - reflexivity.
Defined.

End MoreOnFixtures.

(** ** Applications as results *)

Section AppResult.
Context {Obj Resp Env : Type} (R : Registries Obj Resp Env).
Implicit Types (s : State Obj Env) (obj v : value Obj) (cur : app_ref).

Lemma resolve_model_loop_return fuel : forall cur s v cur' s',
  resolve_model_loop R fuel cur s = Some (LoopReturn v, cur', s') ->
  exists o, v = VObj o.
Proof.
  induction fuel as [|fuel IH]; intros cur s v cur' s' H; simpl in H;
    destruct (unconsumed (request s)) as [|seg l]; try discriminate H.
  destruct (call_consume R cur s) as [next s1].
  destruct next as [|b|o]; cbv iota in H.
  - discriminate H.
  - exact (IH _ _ _ _ _ H).
  - injection H as <- _ _. exists o. reflexivity.
Qed.

(** The loop never returns an application. When [resolve_model] returns
    one, it is the result of the final [consume], made on the empty stack,
    and it is returned as it is: its [parent] is not assigned and
    [request.app] still refers to the application that was asked. *)
Theorem resolve_model_returns_app fuel s b s' :
  resolve_model R fuel s = Some (VApp b, s') ->
  exists ex s1,
    resolve_model_loop R fuel (app (request s)) s = Some (ex, app (request s1), s1) /\
    unconsumed (request s1) = [] /\
    call_consume R (app (request s1)) s1 = (VApp b, s') /\
    app (request s') = app (request s1) /\
    parents s' = parents s1.
Proof.
  unfold resolve_model. intros H.
  destruct (resolve_model_loop R fuel (app (request s)) s)
    as [[[ex cur] s1]|] eqn:Hloop; [|discriminate H].
  destruct (resolve_model_loop_effect R _ _ _ _ _ _ Hloop) as (_ & _ & Hcur & _).
  specialize (Hcur eq_refl). subst cur.
  assert (Hafter : after_loop R (app (request s1)) s1 = (VApp b, s') ->
            unconsumed (request s1) = [] /\
            call_consume R (app (request s1)) s1 = (VApp b, s') /\
            app (request s') = app (request s1) /\
            parents s' = parents s1).
  { unfold after_loop. destruct (unconsumed (request s1)); [|discriminate].
    intros Hc. destruct (call_consume_effect R _ _ _ _ Hc) as (Hp & _ & Ha & _).
    repeat split; assumption. }
  destruct ex as [| |v].
  - injection H as H. exists LoopEnd, s1. split; [reflexivity|]. exact (Hafter H).
  - injection H as H. exists LoopBreak, s1. split; [reflexivity|]. exact (Hafter H).
  - injection H as -> ->.
    destruct (resolve_model_loop_return _ _ _ _ _ _ Hloop) as [o Ho]. discriminate Ho.
Qed.

End AppResult.

Section AppResultOnFixtures.
Import Fixture.

Lemma resolve_model_returns_app_witness :
  exists ex s1,
    resolve_model_loop self_mount 0 0 (start 0 []) = Some (ex, app (request s1), s1) /\
    unconsumed (request s1) = [] /\
    call_consume self_mount (app (request s1)) s1 =
      (VApp 0, {| request := request (start 0 []); parents := ∅;
                  log := [EConsume 0 (VApp 0)] |}) /\
    0 = app (request s1) /\
    (∅ : gmap nat nat) = parents s1.
Proof.
  apply (resolve_model_returns_app self_mount 0 (start 0 []) 0
           {| request := request (start 0 []); parents := ∅;
              log := [EConsume 0 (VApp 0)] |}).
  reflexivity.
Defined.

End AppResultOnFixtures.
